(** * Neon Bowl: the turn and scoring engine

    A shallow embedding of [lib/scoring] ([computeBowlingScore],
    [makeInitialFrames], [isFrameComplete], [maxPinsThisRoll]) and of the
    turn controller of [App.tsx] ([onLaneEvent], [addPlayer], [resetGame]),
    followed by the properties of the engine.  [onLaneEvent] is a closure of
    the render that created it; the model keeps that render apart from the
    state its updaters receive, because [LaneCanvas] keeps calling the
    handler of the first render.

    Pin counts are JavaScript numbers that only ever hold integers; they are
    modelled as [Z].  Array indices and lengths are [nat].  An array read
    [a[i]] is stdpp's lookup [a !! i]; [a[i] ?? 0] is [default 0 (a !! i)]. *)

From stdpp Require Import base list strings.
From Stdlib Require Import ZArith Lia.

Local Open Scope Z_scope.

(** ** lib/scoring *)

Module Scoring.

(** [export type Frame = { rolls: number[] }] *)
Record Frame : Type := mkFrame { rolls : list Z }.

(** [rolls[i] ?? 0] *)
Definition rollAt (rs : list Z) (i : nat) : Z := default 0 (rs !! i).

(** The first loop of [computeBowlingScore]: the rolls of the first
    [Math.min(frames.length, 10)] frames, pushed in order. *)
Definition flattenRolls (frames : list Frame) : list Z :=
  flat_map rolls (take (Nat.min (length frames) 10) frames).

(** The variables the second loop of [computeBowlingScore] updates. *)
Record ScoreAcc : Type := mkAcc {
  total : Z;
  perFrame : list Z;
  rollIndex : nat
}.

(** One iteration of [for (let frame = 0; frame < 10; frame++)]. *)
Definition scoreFrame (rs : list Z) (st : ScoreAcc) : ScoreAcc :=
  let first := rollAt rs (rollIndex st) in
  if first =? 10 then
    (* strike *)
    let bonus1 := rollAt rs (rollIndex st + 1) in
    let bonus2 := rollAt rs (rollIndex st + 2) in
    let s := 10 + bonus1 + bonus2 in
    {| total := total st + s;
       perFrame := perFrame st ++ [s];
       rollIndex := (rollIndex st + 1)%nat |}
  else
    let second := rollAt rs (rollIndex st + 1) in
    let framePins := first + second in
    if framePins =? 10 then
      (* spare *)
      let bonus := rollAt rs (rollIndex st + 2) in
      let s := 10 + bonus in
      {| total := total st + s;
         perFrame := perFrame st ++ [s];
         rollIndex := (rollIndex st + 2)%nat |}
    else
      (* open *)
      let s := framePins in
      {| total := total st + s;
         perFrame := perFrame st ++ [s];
         rollIndex := (rollIndex st + 2)%nat |}.

(** [n] iterations of the scoring loop from the loop state [st]. *)
Fixpoint scoreLoop (rs : list Z) (n : nat) (st : ScoreAcc) : ScoreAcc :=
  match n with
  | O => st
  | S n' => scoreLoop rs n' (scoreFrame rs st)
  end.

(** The value [{ total, perFrame }] that [computeBowlingScore] returns. *)
Record Score : Type := mkScore { scTotal : Z; scPerFrame : list Z }.

Definition computeBowlingScore (frames : list Frame) : Score :=
  let rs := flattenRolls frames in
  let st := scoreLoop rs 10 {| total := 0; perFrame := []; rollIndex := 0 |} in
  {| scTotal := total st; scPerFrame := perFrame st |}.

(** [makeInitialFrames(playerCount)] *)
Definition makeInitialFrames (playerCount : nat) : list (list Frame) :=
  replicate playerCount (replicate 10 {| rolls := [] |}).

Definition isFrameComplete (frameIndex : nat) (frame : Frame) : bool :=
  let rs := rolls frame in
  if (frameIndex <? 9)%nat then
    if (length rs =? 0)%nat then false
    else if bool_decide (rs !! 0%nat = Some 10) then true
    else (2 <=? length rs)%nat
  else
    (* 10th frame *)
    if (length rs <? 2)%nat then false
    else
      let first := rollAt rs 0 in
      let second := rollAt rs 1 in
      if (first =? 10) || (first + second =? 10) then (3 <=? length rs)%nat
      else (2 <=? length rs)%nat.

Definition maxPinsThisRoll (frameIndex : nat) (frame : Frame) : Z :=
  (* Useful for validation. *)
  if (frameIndex <? 9)%nat then
    if (length (rolls frame) =? 0)%nat then 10
    else Z.max 0 (10 - rollAt (rolls frame) 0)
  else
    (* 10th frame *)
    let r := rolls frame in
    if (length r =? 0)%nat then 10
    else if (length r =? 1)%nat then
      (if bool_decide (r !! 0%nat = Some 10) then 10 else 10 - rollAt r 0)
    else if (length r =? 2)%nat then
      let first := rollAt r 0 in
      let second := rollAt r 1 in
      if first =? 10 then (if second =? 10 then 10 else 10 - second)
      else if first + second =? 10 then 10
      else 0
    else 0.

End Scoring.

Import Scoring.

(** ** App.tsx: the frame store and the turn controller *)

Module App.

(** [type Player = { id: string; name: string }] *)
Record Player : Type := mkPlayer { id : string; name : string }.

(** [LaneEvent].  The [speed] and [curve] of a throw are floating-point
    values that the application never reads; they are left out. *)
Inductive LaneEvent : Type :=
  | Throw
  | RollEnd (knocked remaining : Z).

(** The values held by the [useState] hooks of [App]. *)
Record AppState : Type := mkApp {
  players : list Player;
  framesByPlayer : list (list Frame);
  playerIndex : nat;
  frameIndex : nat;
  resetToken : Z;
  keepStandingPins : bool;
  rolling : bool
}.

(** The state of the first render; the two ids come from [uid()]. *)
Definition initialState (id0 id1 : string) : AppState :=
  {| players := [ {| id := id0; name := "Sam" |};
                  {| id := id1; name := "Friend" |} ];
     framesByPlayer := makeInitialFrames 2;
     playerIndex := 0;
     frameIndex := 0;
     resetToken := 1;
     keepStandingPins := false;
     rolling := false |}.

(** [framesByPlayer[playerIndex] ?? []] then [curFrames[frameIndex] ?? { rolls: [] }] *)
Definition curFrame (s : AppState) : Frame :=
  let curFrames := default [] (framesByPlayer s !! playerIndex s) in
  default {| rolls := [] |} (curFrames !! frameIndex s).

Definition maxPins (s : AppState) : Z :=
  maxPinsThisRoll (frameIndex s) (curFrame s).

(** The updater passed to [setFramesByPlayer] in [onLaneEvent]: a copy of
    the store in which [knocked] is pushed on the rolls of
    [next[playerIndex]![frameIndex]!].  Reading [.rolls] of a missing frame
    throws; that is [None]. *)
Definition pushRoll (prev : list (list Frame)) (p f : nat) (knocked : Z)
  : option (list (list Frame)) :=
  match prev !! p with
  | None => None
  | Some row =>
      match row !! f with
      | None => None
      | Some pf =>
          Some (<[p := <[f := {| rolls := rolls pf ++ [knocked] |}]> row]> prev)
      end
  end.

(** [onLaneEvent] as created by the render [c] and called when the state is
    [s].  [players], [playerIndex], [frameIndex], [curFrame] and [maxPins]
    are constants of the render the function closes over: the values of
    [c].  The functional updaters ([setFramesByPlayer((prev) => ...)],
    [setPlayerIndex((i) => i + 1)], [setFrameIndex((f) => ...)],
    [setResetToken((x) => x + 1)]) receive the values of [s]. *)
Definition onLaneEvent (c s : AppState) (e : LaneEvent) : option AppState :=
  match e with
  | Throw =>
      Some {| players := players s;
              framesByPlayer := framesByPlayer s;
              playerIndex := playerIndex s;
              frameIndex := frameIndex s;
              resetToken := resetToken s;
              keepStandingPins := keepStandingPins s;
              rolling := true |}
  | RollEnd eKnocked _ =>
      let knocked := Z.max 0 (Z.min (maxPins c) eKnocked) in
      match pushRoll (framesByPlayer s) (playerIndex c) (frameIndex c) knocked with
      | None => None
      | Some next =>
          (* Advance turn if frame complete *)
          let newFrame := {| rolls := rolls (curFrame c) ++ [knocked] |} in
          let done := isFrameComplete (frameIndex c) newFrame in
          if negb done then
            (* second roll in same frame -> keep standing pins *)
            Some {| players := players s;
                    framesByPlayer := next;
                    playerIndex := playerIndex s;
                    frameIndex := frameIndex s;
                    resetToken := resetToken s + 1;
                    keepStandingPins := true;
                    rolling := false |}
          else
            (* next player or next frame *)
            let isLastPlayer :=
              Z.of_nat (playerIndex c) =? Z.of_nat (length (players c)) - 1 in
            if negb isLastPlayer then
              Some {| players := players s;
                      framesByPlayer := next;
                      playerIndex := (playerIndex s + 1)%nat;
                      frameIndex := frameIndex s;
                      resetToken := resetToken s + 1;
                      keepStandingPins := false;
                      rolling := false |}
            else
              Some {| players := players s;
                      framesByPlayer := next;
                      playerIndex := 0;
                      frameIndex := Nat.min 9 (frameIndex s + 1);
                      resetToken := resetToken s + 1;
                      keepStandingPins := false;
                      rolling := false |}
      end
  end.

(** [addPlayer]: [newName] is the trimmed answer of the prompt, empty when
    the prompt was cancelled; [newId] is the value of [uid()]. *)
Definition addPlayer (s : AppState) (newId newName : string) : AppState :=
  if bool_decide (newName = EmptyString) then s
  else
    let next := players s ++ [ {| id := newId; name := newName |} ] in
    {| players := next;
       framesByPlayer := makeInitialFrames (length next);
       playerIndex := 0;
       frameIndex := 0;
       resetToken := resetToken s + 1;
       keepStandingPins := false;
       rolling := false |}.

(** [resetGame]: [confirmed] is the answer of the confirmation dialog. *)
Definition resetGame (s : AppState) (confirmed : bool) : AppState :=
  if negb confirmed then s
  else
    {| players := players s;
       framesByPlayer := makeInitialFrames (length (players s));
       playerIndex := 0;
       frameIndex := 0;
       resetToken := resetToken s + 1;
       keepStandingPins := false;
       rolling := false |}.

(** The states the application can be in.  [LaneCanvas] starts its frame
    loop once, in an effect that runs at mount only; the loop re-schedules
    itself and calls [props.onEvent] of the render it was created in.  So
    every [roll_end] is handled by the [onLaneEvent] of the first render of
    [App], whatever the state has become.  [addPlayer] and [resetGame] are
    button handlers and run with the closure of the current render. *)
Inductive reachable (id0 id1 : string) : AppState → Prop :=
  | reach_init : reachable id0 id1 (initialState id0 id1)
  | reach_event s e s' :
      reachable id0 id1 s →
      onLaneEvent (initialState id0 id1) s e = Some s' →
      reachable id0 id1 s'
  | reach_add s newId newName :
      reachable id0 id1 s → reachable id0 id1 (addPlayer s newId newName)
  | reach_reset s confirmed :
      reachable id0 id1 s → reachable id0 id1 (resetGame s confirmed).

(** The frame stored for player [p] at frame index [f]. *)
Definition frameAt (s : AppState) (p f : nat) : option Frame :=
  match framesByPlayer s !! p with
  | None => None
  | Some row => row !! f
  end.

(** The roll results [ks] handled one after the other by the
    [onLaneEvent] of the render [c], starting in the state [s]. *)
Fixpoint rollAll (c s : AppState) (ks : list Z) : option AppState :=
  match ks with
  | [] => Some s
  | k :: ks' =>
      match onLaneEvent c s (RollEnd k (10 - k)) with
      | None => None
      | Some s' => rollAll c s' ks'
      end
  end.

(** Every stored roll is a pin count between 0 and 10. *)
Definition rollsInRange (f : Frame) : Prop :=
  Forall (λ r, 0 ≤ r ≤ 10) (rolls f).

(** What every reachable state satisfies. *)
Record played (s : AppState) : Prop := mkPlayed {
  pl_players : (2 ≤ length (players s))%nat;
  pl_rows : length (framesByPlayer s) = length (players s);
  pl_frame : frameIndex s = 0%nat;
  pl_store :
    Forall (λ row, length row = 10%nat ∧ Forall rollsInRange row)
           (framesByPlayer s);
  pl_first : ∀ p f fr,
    frameAt s p f = Some fr → p ≠ 0%nat ∨ f ≠ 0%nat → rolls fr = []
}.

End App.

Import App.

(** ** Games used in the statements *)

Definition strikeFrame : Frame := {| rolls := [10] |}.

Definition emptyFrame : Frame := {| rolls := [] |}.

(** Twelve rolls of 10: a strike in each of frames 0-8, [10,10,10] in frame 9. *)
Definition allStrikes : list Frame :=
  replicate 9 strikeFrame ++ [ {| rolls := [10; 10; 10] |} ].

(** The open frame [4,3], then nine strikes and the two bonus rolls. *)
Definition openThenStrikes : list Frame :=
  {| rolls := [4; 3] |} :: replicate 8 strikeFrame
    ++ [ {| rolls := [10; 10; 10] |} ].

(** The sum of the entries of a [perFrame] array. *)
Definition sumZ (l : list Z) : Z := foldr Z.add 0 l.

(** A finished frame of index 0-8 as the scoring walk reads it: a strike
    alone, or two rolls of which the first is not a strike. *)
Definition closedFrame (f : Frame) : bool :=
  match rolls f with
  | [a] => a =? 10
  | [a; _] => negb (a =? 10)
  | _ => false
  end.

(** The rolls of a frame are legal when each one, at the time it was made,
    was between 0 and [maxPinsThisRoll] of the rolls before it. *)
Fixpoint legalFrom (frameIndex : nat) (before todo : list Z) : bool :=
  match todo with
  | [] => true
  | r :: rest =>
      (0 <=? r) && (r <=? maxPinsThisRoll frameIndex {| rolls := before |})
      && legalFrom frameIndex (before ++ [r]) rest
  end.

Definition legalRolls (frameIndex : nat) (rs : list Z) : bool :=
  legalFrom frameIndex [] rs.

(** The score that one iteration of the scoring loop pushes when its cursor
    is at index [i] of the flattened rolls. *)
Definition pushedScore (rs : list Z) (i : nat) : Z :=
  let first := rollAt rs i in
  if first =? 10 then 10 + rollAt rs (i + 1) + rollAt rs (i + 2)
  else
    let framePins := first + rollAt rs (i + 1) in
    if framePins =? 10 then 10 + rollAt rs (i + 2) else framePins.

(** Frame 0 holds the single roll 3, every other frame is empty. *)
Definition oneRollGame : list Frame :=
  {| rolls := [3] |} :: replicate 9 emptyFrame.

(** A frame that holds no roll yet. *)
Definition noRolls (f : Frame) : bool := (length (rolls f) =? 0)%nat.

(** The game the application starts with, after one more player joined. *)
Definition threePlayerGame : AppState :=
  addPlayer (initialState "p0" "p1") "p2" "Third".

(** The active player and the active frame after the roll results [ks],
    handled by the [onLaneEvent] of the render [c]. *)
Definition turnAfter (c s : AppState) (ks : list Z) : option (nat * nat) :=
  match rollAll c s ks with
  | None => None
  | Some s' => Some (playerIndex s', frameIndex s')
  end.

(** A pin count: an integer between 0 and 10. *)
Definition pinCount (r : Z) : Prop := 0 ≤ r ≤ 10.

(** The rolls that follow frame number [length pre] in the flattened
    sequence, when [post] are the frames after it. *)
Definition rollsAfter (pre post : list Frame) : list Z :=
  flat_map rolls (take (9 - length pre) post).

(** One entry of [scores]: [{ player, total, perFrame, frames }]. *)
Record ScoreRow : Type := mkScoreRow {
  player : Player;
  rowTotal : Z;
  rowPerFrame : list Z;
  rowFrames : list Frame
}.

(** [scores]: for the player at index [i], the score of
    [framesByPlayer[i] ?? []]. *)
Definition scores (s : AppState) : list ScoreRow :=
  imap (λ i p,
          let frames := default [] (framesByPlayer s !! i) in
          let sc := computeBowlingScore frames in
          {| player := p;
             rowTotal := scTotal sc;
             rowPerFrame := scPerFrame sc;
             rowFrames := frames |})
       (players s).

(** The state of the application started with the ids "a" and "b", after
    the roll results [ks]. *)
Definition afterRolls (ks : list Z) : AppState :=
  default (initialState "a" "b")
          (rollAll (initialState "a" "b") (initialState "a" "b") ks).

(** ** Properties of the scoring engine *)

(** C1: the all-strikes game scores a total of 300 and each of its ten
    per-frame entries is 30. *)
Theorem all_strikes_score :
  scTotal (computeBowlingScore allStrikes) = 300
  ∧ scPerFrame (computeBowlingScore allStrikes) = replicate 10 30
  ∧ length (scPerFrame (computeBowlingScore allStrikes)) = 10%nat
  ∧ Forall (λ s, s = 30) (scPerFrame (computeBowlingScore allStrikes)).
Proof.
  assert (E : computeBowlingScore allStrikes = mkScore 300 (replicate 10 30))
    by (vm_compute; reflexivity).
  rewrite E; cbn [scTotal scPerFrame].
  split; [reflexivity|]. split; [reflexivity|]. split; [reflexivity|].
  apply Forall_replicate. reflexivity.
Qed.

(** *** The scoring loop *)

Lemma scoreFrame_perFrame_length rs st :
  length (perFrame (scoreFrame rs st)) = S (length (perFrame st)).
Proof.
  unfold scoreFrame.
  repeat case_match; cbn [perFrame]; rewrite length_app; simpl; lia.
Qed.

Lemma sumZ_snoc l x : sumZ (l ++ [x]) = sumZ l + x.
Proof.
  unfold sumZ. induction l as [|y l IH]; simpl; [lia|]. rewrite IH. lia.
Qed.

Lemma scoreFrame_total rs st :
  total (scoreFrame rs st) - sumZ (perFrame (scoreFrame rs st))
  = total st - sumZ (perFrame st).
Proof.
  unfold scoreFrame.
  repeat case_match; cbn [perFrame total]; rewrite sumZ_snoc; lia.
Qed.

Lemma scoreLoop_perFrame_length rs n st :
  length (perFrame (scoreLoop rs n st)) = (n + length (perFrame st))%nat.
Proof.
  revert st. induction n as [|n IH]; intros st; simpl; [reflexivity|].
  rewrite IH, scoreFrame_perFrame_length. lia.
Qed.

Lemma scoreLoop_total rs n st :
  total (scoreLoop rs n st) - sumZ (perFrame (scoreLoop rs n st))
  = total st - sumZ (perFrame st).
Proof.
  revert st. induction n as [|n IH]; intros st; simpl; [reflexivity|].
  rewrite IH. apply scoreFrame_total.
Qed.

Lemma flattenRolls_take10 frames :
  flattenRolls (take 10 frames) = flattenRolls frames.
Proof.
  unfold flattenRolls. f_equal.
  rewrite length_take, take_take. f_equal. lia.
Qed.

Lemma score_shape_aux (frames : list Frame) :
  length (scPerFrame (computeBowlingScore frames)) = 10%nat
  ∧ scTotal (computeBowlingScore frames)
    = sumZ (scPerFrame (computeBowlingScore frames)).
Proof.
  unfold computeBowlingScore; cbn [scTotal scPerFrame]. split.
  - rewrite scoreLoop_perFrame_length. reflexivity.
  - pose proof (scoreLoop_total (flattenRolls frames) 10
                  {| total := 0; perFrame := []; rollIndex := 0 |}) as H.
    cbn [total perFrame sumZ foldr] in H. lia.
Qed.

(** C9: whatever the frame list, [perFrame] has exactly ten entries, all of
    them numbers, the total is their sum, and only the first ten frames of
    the input are read. *)
Theorem score_shape (frames : list Frame) :
  length (scPerFrame (computeBowlingScore frames)) = 10%nat
  ∧ (∃ s0 s1 s2 s3 s4 s5 s6 s7 s8 s9 : Z,
        scPerFrame (computeBowlingScore frames)
        = [s0; s1; s2; s3; s4; s5; s6; s7; s8; s9])
  ∧ scTotal (computeBowlingScore frames)
    = sumZ (scPerFrame (computeBowlingScore frames))
  ∧ computeBowlingScore frames = computeBowlingScore (take 10 frames).
Proof.
  destruct (score_shape_aux frames) as [L T].
  split; [exact L|]. split.
  { destruct (scPerFrame (computeBowlingScore frames))
      as [|s0 [|s1 [|s2 [|s3 [|s4 [|s5 [|s6 [|s7 [|s8 [|s9 [|x l]]]]]]]]]]];
      try discriminate L.
    eexists _, _, _, _, _, _, _, _, _, _. reflexivity. }
  split; [exact T|].
  unfold computeBowlingScore. rewrite flattenRolls_take10. reflexivity.
Qed.

(** *** The frame predicates *)

(** C10: a complete frame stays complete when one more roll is appended,
    whatever the frame index. *)
Theorem isFrameComplete_snoc (frameIndex : nat) (rs : list Z) (r : Z) :
  isFrameComplete frameIndex {| rolls := rs |} = true →
  isFrameComplete frameIndex {| rolls := rs ++ [r] |} = true.
Proof.
  unfold isFrameComplete, rollAt; cbn [rolls].
  destruct (frameIndex <? 9)%nat.
  - destruct rs as [|a rs']; [discriminate|].
    cbn [app length Nat.eqb lookup list_lookup].
    destruct (bool_decide (Some a = Some 10)); [reflexivity|].
    rewrite length_app. intros H%Nat.leb_le. apply Nat.leb_le. simpl in *. lia.
  - destruct rs as [|a [|b rs']]; simpl; try discriminate.
    destruct ((a =? 10) || (a + b =? 10)); [|reflexivity].
    destruct rs'; [discriminate | reflexivity].
Qed.

Lemma isFrameComplete_snoc_witness :
  isFrameComplete 3 {| rolls := [3; 4] |} = true
  ∧ isFrameComplete 3 {| rolls := [3; 4] ++ [5] |} = true.
Proof.
  split; [reflexivity|].
  apply (isFrameComplete_snoc 3 [3; 4] 5). reflexivity.
Defined.

Lemma legalFrom_cons frameIndex before r rest :
  legalFrom frameIndex before (r :: rest) = true →
  0 ≤ r ≤ maxPinsThisRoll frameIndex {| rolls := before |}
  ∧ legalFrom frameIndex (before ++ [r]) rest = true.
Proof.
  cbn [legalFrom]. intros H.
  apply andb_prop in H as [H Hrest]. apply andb_prop in H as [H0 Hmax].
  apply Z.leb_le in H0. apply Z.leb_le in Hmax. auto.
Qed.

Lemma maxPins_tenth_one a :
  maxPinsThisRoll 9 {| rolls := [a] |} = if a =? 10 then 10 else 10 - a.
Proof.
  unfold maxPinsThisRoll, rollAt; simpl.
  destruct (Z.eqb_spec a 10) as [->|Hne].
  - rewrite bool_decide_eq_true_2; reflexivity.
  - rewrite bool_decide_eq_false_2; [reflexivity | congruence].
Qed.

(** C4: in the 10th frame with legal rolls, fewer than two rolls is never
    complete; when the first two rolls sum to 10 or more the frame is
    complete exactly from three rolls on; otherwise exactly from two rolls
    on.  (A roll not yet made counts as 0 in the sum.) *)
Theorem tenth_frame_completion (rs : list Z) :
  legalRolls 9 rs = true →
  ((length rs < 2)%nat → isFrameComplete 9 {| rolls := rs |} = false)
  ∧ (10 ≤ rollAt rs 0 + rollAt rs 1 →
       (isFrameComplete 9 {| rolls := rs |} = true ↔ (3 ≤ length rs)%nat))
  ∧ (rollAt rs 0 + rollAt rs 1 < 10 →
       (isFrameComplete 9 {| rolls := rs |} = true ↔ (2 ≤ length rs)%nat)).
Proof.
  intros Hlegal. unfold legalRolls in Hlegal.
  destruct rs as [|a [|b rest]].
  - simpl. repeat split; intros; try lia; try discriminate.
  - simpl. repeat split; intros; try lia; try discriminate.
  - apply legalFrom_cons in Hlegal as [[Ha0 Ha] Hlegal].
    apply legalFrom_cons in Hlegal as [[Hb0 Hb] _].
    change ([] ++ [a]) with [a] in Hb. rewrite maxPins_tenth_one in Hb.
    change (maxPinsThisRoll 9 {| rolls := [] |}) with 10 in Ha.
    unfold isFrameComplete, rollAt; simpl.
    split; [intros; lia|].
    destruct (Z.eqb_spec a 10) as [->|Hne]; simpl.
    + split; intros Hsum; [|lia].
      destruct rest; simpl; split; intros; try lia; try discriminate; reflexivity.
    + destruct (Z.eqb_spec (a + b) 10) as [Hs|Hs].
      * split; intros Hsum; [|lia].
        destruct rest; simpl; split; intros; try lia; try discriminate; reflexivity.
      * split; intros Hsum; [lia|].
        split; intros; [lia | reflexivity].
Qed.

Lemma tenth_frame_completion_witness :
  legalRolls 9 [5; 5; 9] = true
  ∧ ((length [5; 5; 9] < 2)%nat →
       isFrameComplete 9 {| rolls := [5; 5; 9] |} = false)
  ∧ (10 ≤ rollAt [5; 5; 9] 0 + rollAt [5; 5; 9] 1 →
       (isFrameComplete 9 {| rolls := [5; 5; 9] |} = true
        ↔ (3 ≤ length [5; 5; 9])%nat))
  ∧ (rollAt [5; 5; 9] 0 + rollAt [5; 5; 9] 1 < 10 →
       (isFrameComplete 9 {| rolls := [5; 5; 9] |} = true
        ↔ (2 ≤ length [5; 5; 9])%nat)).
Proof.
  split; [reflexivity|].
  apply (tenth_frame_completion [5; 5; 9]). reflexivity.
Defined.

(** C6: in frame 0 the rolls [3,4] are legal and complete the frame, yet
    [maxPinsThisRoll] still reports 7 pins there; the 10th-frame branch
    reports 0 for the same rolls. *)
Theorem maxPins_closed_open_frame :
  legalRolls 0 [3; 4] = true
  ∧ isFrameComplete 0 {| rolls := [3; 4] |} = true
  ∧ maxPinsThisRoll 0 {| rolls := [3; 4] |} = 7
  ∧ isFrameComplete 9 {| rolls := [3; 4] |} = true
  ∧ maxPinsThisRoll 9 {| rolls := [3; 4] |} = 0.
Proof. repeat split. Qed.

(** *** The scoring walk over finished frames *)

Lemma scoreFrame_perFrame rs st :
  perFrame (scoreFrame rs st) = perFrame st ++ [pushedScore rs (rollIndex st)].
Proof.
  unfold scoreFrame, pushedScore. repeat case_match; reflexivity.
Qed.

Lemma rollAt_app_r front l j :
  rollAt (front ++ l) (length front + j) = rollAt l j.
Proof.
  unfold rollAt. rewrite lookup_app_r by lia. do 2 f_equal. lia.
Qed.

Lemma rollAt_app_0 front l :
  rollAt (front ++ l) (length front) = rollAt l 0.
Proof.
  rewrite <- (rollAt_app_r front l 0). f_equal. lia.
Qed.

Lemma pushedScore_app_r front l :
  pushedScore (front ++ l) (length front) = pushedScore l 0.
Proof.
  unfold pushedScore.
  rewrite !rollAt_app_r, !rollAt_app_0. reflexivity.
Qed.

Lemma scoreLoop_add rs n m st :
  scoreLoop rs (n + m) st = scoreLoop rs m (scoreLoop rs n st).
Proof.
  revert st. induction n as [|n IH]; intros st; simpl; [reflexivity|apply IH].
Qed.

Lemma scoreLoop_perFrame_prefix rs n st :
  ∃ more, perFrame (scoreLoop rs n st) = perFrame st ++ more.
Proof.
  revert st. induction n as [|n IH]; intros st; simpl.
  - exists []. rewrite app_nil_r. reflexivity.
  - destruct (IH (scoreFrame rs st)) as [more E].
    rewrite E, scoreFrame_perFrame, <- app_assoc. eauto.
Qed.

(** On a finished frame the cursor moves past exactly that frame's rolls. *)
Lemma scoreFrame_closed front f rest st :
  closedFrame f = true →
  rollIndex st = length front →
  rollIndex (scoreFrame (front ++ rolls f ++ rest) st)
  = length (front ++ rolls f).
Proof.
  intros Hc Hi. unfold closedFrame in Hc. unfold scoreFrame.
  rewrite Hi, !rollAt_app_r, !rollAt_app_0, length_app.
  destruct (rolls f) as [|a [|b [|c l]]]; try discriminate Hc;
    unfold rollAt; simpl.
  - rewrite Hc. simpl. lia.
  - apply negb_true_iff in Hc. rewrite Hc.
    destruct (a + b =? 10); simpl; lia.
Qed.

Lemma scoreLoop_closed pre : ∀ front rest st,
  forallb closedFrame pre = true →
  rollIndex st = length front →
  rollIndex (scoreLoop (front ++ flat_map rolls pre ++ rest) (length pre) st)
  = length (front ++ flat_map rolls pre).
Proof.
  induction pre as [|f pre IH]; intros front rest st Hc Hi.
  - simpl. rewrite app_nil_r. exact Hi.
  - cbn [forallb] in Hc. apply andb_prop in Hc as [Hf Hpre].
    cbn [flat_map length scoreLoop].
    rewrite <- (app_assoc (rolls f)).
    rewrite (app_assoc front (rolls f)).
    rewrite (app_assoc front (rolls f) (flat_map rolls pre)).
    apply IH; [exact Hpre|].
    rewrite <- (app_assoc front (rolls f)).
    apply scoreFrame_closed; assumption.
Qed.

Lemma flattenRolls_split pre f post :
  (length pre < 10)%nat →
  flattenRolls (pre ++ f :: post)
  = flat_map rolls pre ++ rolls f
      ++ flat_map rolls (take (9 - length pre) post).
Proof.
  intros Hlen. unfold flattenRolls.
  rewrite take_app, length_app. cbn [length].
  rewrite (take_ge pre) by lia.
  replace (Nat.min (length pre + S (length post)) 10 - length pre)%nat
    with (S (Nat.min (length post) (9 - length pre))) by lia.
  cbn [take]. rewrite flat_map_app. cbn [flat_map].
  do 3 f_equal. rewrite <- take_take. apply take_ge. rewrite length_take. lia.
Qed.

(** After finished frames, slot [length pre] of [perFrame] is the score the
    loop pushes with its cursor on the first roll of the next frame. *)
Lemma slot_after_closed pre f post :
  forallb closedFrame pre = true →
  (length pre < 10)%nat →
  scPerFrame (computeBowlingScore (pre ++ f :: post)) !! length pre
  = Some (pushedScore
            (rolls f ++ flat_map rolls (take (9 - length pre) post)) 0).
Proof.
  intros Hc Hlen. unfold computeBowlingScore; cbn [scPerFrame].
  rewrite flattenRolls_split by exact Hlen.
  set (tail := rolls f ++ flat_map rolls (take (9 - length pre) post)).
  set (rs := flat_map rolls pre ++ tail).
  set (st0 := {| total := 0; perFrame := []; rollIndex := 0 |}).
  replace 10%nat with (length pre + S (9 - length pre))%nat by lia.
  rewrite scoreLoop_add. cbn [scoreLoop].
  set (sti := scoreLoop rs (length pre) st0).
  assert (Hidx : rollIndex sti = length (flat_map rolls pre)).
  { apply (scoreLoop_closed pre [] tail st0 Hc). reflexivity. }
  assert (Hpf : length (perFrame sti) = length pre).
  { unfold sti. rewrite scoreLoop_perFrame_length. simpl. lia. }
  destruct (scoreLoop_perFrame_prefix rs (9 - length pre) (scoreFrame rs sti))
    as [more E].
  rewrite E, scoreFrame_perFrame, <- app_assoc. cbn [app].
  rewrite list_lookup_middle by (symmetry; exact Hpf).
  rewrite Hidx. unfold rs. rewrite pushedScore_app_r. reflexivity.
Qed.

(** C7: after finished frames, an open frame [a,b] scores exactly [a + b]
    whatever the later frames hold; in the game [4,3] followed by nine
    strikes and the two bonus rolls, frame 0 scores 7. *)
Theorem open_frame_score_fixed (pre : list Frame) (a b : Z) (post : list Frame) :
  forallb closedFrame pre = true →
  (length pre < 10)%nat →
  a ≠ 10 →
  a + b ≠ 10 →
  scPerFrame (computeBowlingScore (pre ++ {| rolls := [a; b] |} :: post))
    !! length pre = Some (a + b)
  ∧ scPerFrame (computeBowlingScore openThenStrikes) !! 0%nat = Some 7.
Proof.
  intros Hc Hlen Ha Hab. split; [|reflexivity].
  rewrite slot_after_closed by assumption.
  unfold pushedScore, rollAt; simpl.
  destruct (Z.eqb_spec a 10); [contradiction|].
  destruct (Z.eqb_spec (a + b) 10); [contradiction|]. reflexivity.
Qed.

Lemma open_frame_score_fixed_witness :
  scPerFrame
    (computeBowlingScore
       ([] ++ {| rolls := [4; 3] |}
          :: replicate 8 strikeFrame ++ [ {| rolls := [10; 10; 10] |} ]))
    !! 0%nat = Some (4 + 3)
  ∧ scPerFrame (computeBowlingScore openThenStrikes) !! 0%nat = Some 7.
Proof.
  apply (open_frame_score_fixed [] 4 3
           (replicate 8 strikeFrame ++ [ {| rolls := [10; 10; 10] |} ]));
    [reflexivity | simpl; lia | lia | lia].
Defined.

(** C8: whatever finished frames come before it, a 10th frame holding
    [10,7,2] scores 19, and once the 10th frame holds three rolls
    [maxPinsThisRoll] is 0: there is no fourth roll. *)
Theorem tenth_frame_strike_bonus (pre : list Frame) :
  forallb closedFrame pre = true →
  length pre = 9%nat →
  scPerFrame (computeBowlingScore (pre ++ [ {| rolls := [10; 7; 2] |} ]))
    !! 9%nat = Some 19
  ∧ maxPinsThisRoll 9 {| rolls := [10; 7; 2] |} = 0
  ∧ legalRolls 9 [10; 7; 2] = true
  ∧ (∀ rs, (3 ≤ length rs)%nat → maxPinsThisRoll 9 {| rolls := rs |} = 0).
Proof.
  intros Hc Hlen. split.
  { pose proof (slot_after_closed pre {| rolls := [10; 7; 2] |} [] Hc) as H.
    rewrite Hlen in H. apply H. lia. }
  split; [reflexivity|]. split; [reflexivity|].
  intros rs Hrs. unfold maxPinsThisRoll; cbn [rolls Nat.ltb Nat.leb].
  destruct rs as [|x [|y [|z rs']]]; simpl in Hrs; try lia. reflexivity.
Qed.

Lemma tenth_frame_strike_bonus_witness :
  forallb closedFrame (replicate 9 {| rolls := [3; 4] |}) = true
  ∧ length (replicate 9 {| rolls := [3; 4] |}) = 9%nat
  ∧ scPerFrame
      (computeBowlingScore
         (replicate 9 {| rolls := [3; 4] |} ++ [ {| rolls := [10; 7; 2] |} ]))
      !! 9%nat = Some 19
  ∧ maxPinsThisRoll 9 {| rolls := [10; 7; 2] |} = 0.
Proof.
  split; [reflexivity|]. split; [reflexivity|].
  destruct (tenth_frame_strike_bonus (replicate 9 {| rolls := [3; 4] |}))
    as (Hscore & Hmax & _); [reflexivity | reflexivity |].
  split; [exact Hscore | exact Hmax].
Defined.

(** *** Partial games *)

Lemma flat_map_noRolls post n :
  forallb noRolls post = true → flat_map rolls (take n post) = [].
Proof.
  revert n. induction post as [|g post IH]; intros n Hp.
  - rewrite take_nil. reflexivity.
  - cbn [forallb] in Hp. apply andb_prop in Hp as [Hg Hp].
    destruct n as [|n]; [reflexivity|]. cbn [take flat_map].
    rewrite (IH n Hp), app_nil_r.
    unfold noRolls in Hg. apply Nat.eqb_eq in Hg.
    destruct (rolls g); [reflexivity | discriminate Hg].
Qed.

(** C3, as stated, fails: with the single roll 3 in frame 0, slot 0 of
    [perFrame] is the number 3, not an absent value, and the frame
    contributes 3, not 0, to the total. *)
Lemma partial_frame_is_scored :
  oneRollGame !! 0%nat = Some {| rolls := [3] |}
  ∧ scPerFrame (computeBowlingScore oneRollGame) !! 0%nat = Some 3
  ∧ scPerFrame (computeBowlingScore oneRollGame) !! 0%nat ≠ None
  ∧ scTotal (computeBowlingScore oneRollGame) = 3
  ∧ scTotal (computeBowlingScore oneRollGame) ≠ 0.
Proof.
  split; [reflexivity|]. split; [vm_compute; reflexivity|].
  split; [vm_compute; discriminate|].
  split; [vm_compute; reflexivity | vm_compute; discriminate].
Qed.

(** C3, amended: the score is defined on every partial game; when the
    frames before it are finished and the frames after it are empty, a frame
    holding no roll or one roll that is not a strike gets, in its own slot of
    [perFrame], the number of pins it holds so far (0 or that one roll),
    [perFrame] has ten entries and the total is their sum, so the frame
    contributes that provisional number to the total. *)
Theorem partial_frame_provisional (pre : list Frame) (f : Frame) (post : list Frame) :
  forallb closedFrame pre = true →
  (length pre < 10)%nat →
  (length (rolls f) ≤ 1)%nat →
  rolls f ≠ [10] →
  forallb noRolls post = true →
  scPerFrame (computeBowlingScore (pre ++ f :: post)) !! length pre
    = Some (sumZ (rolls f))
  ∧ length (scPerFrame (computeBowlingScore (pre ++ f :: post))) = 10%nat
  ∧ scTotal (computeBowlingScore (pre ++ f :: post))
    = sumZ (scPerFrame (computeBowlingScore (pre ++ f :: post))).
Proof.
  intros Hc Hlen Hf Hns Hpost.
  split; [|split; apply (score_shape_aux (pre ++ f :: post))].
  rewrite slot_after_closed by assumption.
  rewrite flat_map_noRolls by assumption. rewrite app_nil_r.
  destruct (rolls f) as [|r [|r' l]]; simpl in Hf; try lia.
  - reflexivity.
  - unfold pushedScore, rollAt, sumZ; simpl.
    destruct (Z.eqb_spec r 10) as [->|Hr]; [contradiction|].
    destruct (Z.eqb_spec (r + 0) 10); [lia | reflexivity].
Qed.

Lemma partial_frame_provisional_witness :
  scPerFrame
    (computeBowlingScore
       ([strikeFrame; {| rolls := [4; 3] |}] ++ {| rolls := [3] |}
          :: replicate 7 emptyFrame))
    !! 2%nat = Some 3.
Proof.
  apply (partial_frame_provisional
           [strikeFrame; {| rolls := [4; 3] |}] {| rolls := [3] |}
           (replicate 7 emptyFrame));
    [reflexivity | simpl; lia | simpl; lia | discriminate | reflexivity].
Defined.

(** ** Properties of the turn controller *)

Lemma rollAt_range rs i :
  Forall (λ r, 0 ≤ r ≤ 10) rs → 0 ≤ rollAt rs i ≤ 10.
Proof.
  intros H. unfold rollAt. destruct (rs !! i) as [r|] eqn:E; simpl; [|lia].
  exact (Forall_lookup_1 _ _ _ _ H E).
Qed.

Lemma maxPinsThisRoll_range frameIndex f :
  rollsInRange f → 0 ≤ maxPinsThisRoll frameIndex f ≤ 10.
Proof.
  unfold rollsInRange, maxPinsThisRoll. intros H.
  pose proof (rollAt_range (rolls f) 0 H) as H0.
  pose proof (rollAt_range (rolls f) 1 H) as H1.
  repeat case_match; lia.
Qed.

Lemma makeInitialFrames_store n :
  Forall (λ row, length row = 10%nat ∧ Forall rollsInRange row)
         (makeInitialFrames n).
Proof.
  unfold makeInitialFrames. apply Forall_replicate. split; [reflexivity|].
  apply Forall_replicate. unfold rollsInRange. simpl. constructor.
Qed.

Lemma makeInitialFrames_length n : length (makeInitialFrames n) = n.
Proof. unfold makeInitialFrames. apply length_replicate. Qed.

(** *** The frame store *)

Lemma pushRoll_store prev p f k next :
  Forall (λ row, length row = 10%nat ∧ Forall rollsInRange row) prev →
  0 ≤ k ≤ 10 →
  pushRoll prev p f k = Some next →
  length next = length prev
  ∧ Forall (λ row, length row = 10%nat ∧ Forall rollsInRange row) next.
Proof.
  intros Hst Hk. unfold pushRoll.
  destruct (prev !! p) as [row|] eqn:Hrow; [|discriminate].
  destruct (row !! f) as [pf|] eqn:Hpf; [|discriminate].
  intros [= <-]. rewrite length_insert. split; [reflexivity|].
  destruct (Forall_lookup_1 _ _ _ _ Hst Hrow) as [Hlen Hall].
  apply Forall_insert; [exact Hst|].
  rewrite length_insert. split; [exact Hlen|].
  apply Forall_insert; [exact Hall|].
  unfold rollsInRange; cbn [rolls]. apply Forall_app. split.
  - exact (Forall_lookup_1 _ _ _ _ Hall Hpf).
  - constructor; [exact Hk | constructor].
Qed.

Lemma pushRoll_frame prev p f k row pf :
  prev !! p = Some row →
  row !! f = Some pf →
  ∃ next row',
    pushRoll prev p f k = Some next
    ∧ next !! p = Some row'
    ∧ row' !! f = Some {| rolls := rolls pf ++ [k] |}.
Proof.
  intros Hrow Hpf. unfold pushRoll. rewrite Hrow, Hpf.
  eexists _, _. split; [reflexivity|]. split.
  - apply list_lookup_insert_eq. exact (lookup_lt_Some _ _ _ Hrow).
  - apply list_lookup_insert_eq. exact (lookup_lt_Some _ _ _ Hpf).
Qed.

Lemma frameAt_initial s n p f fr :
  framesByPlayer s = makeInitialFrames n →
  frameAt s p f = Some fr → rolls fr = [].
Proof.
  intros E. unfold frameAt, makeInitialFrames in *. rewrite E.
  destruct (replicate n _ !! p) as [row|] eqn:Hrow; [|discriminate].
  apply lookup_replicate in Hrow as [-> _].
  intros H. apply lookup_replicate in H as [-> _]. reflexivity.
Qed.

(** A push changes the frame it is made to and no other. *)
Lemma pushRoll_lookup prev p f k next :
  pushRoll prev p f k = Some next →
  ∃ row old,
    prev !! p = Some row ∧ row !! f = Some old
    ∧ next = <[p := <[f := {| rolls := rolls old ++ [k] |}]> row]> prev.
Proof.
  unfold pushRoll.
  destruct (prev !! p) as [row|] eqn:Hrow; [|discriminate].
  destruct (row !! f) as [old|] eqn:Hold; [|discriminate].
  intros Hn. apply (inj Some) in Hn. exists row, old. auto.
Qed.

(** *** One roll result, for the handler of any render *)

Lemma onLaneEvent_roll c s k rem s' :
  onLaneEvent c s (RollEnd k rem) = Some s' →
  let knocked := Z.max 0 (Z.min (maxPins c) k) in
  let done :=
    isFrameComplete (frameIndex c)
      {| rolls := rolls (curFrame c) ++ [knocked] |} in
  pushRoll (framesByPlayer s) (playerIndex c) (frameIndex c) knocked
  = Some (framesByPlayer s')
  ∧ players s' = players s
  ∧ resetToken s' = resetToken s + 1
  ∧ rolling s' = false
  ∧ ((done = false ∧ playerIndex s' = playerIndex s
      ∧ frameIndex s' = frameIndex s ∧ keepStandingPins s' = true)
     ∨ (done = true
        ∧ Z.of_nat (playerIndex c) ≠ Z.of_nat (length (players c)) - 1
        ∧ playerIndex s' = (playerIndex s + 1)%nat
        ∧ frameIndex s' = frameIndex s ∧ keepStandingPins s' = false)
     ∨ (done = true
        ∧ Z.of_nat (playerIndex c) = Z.of_nat (length (players c)) - 1
        ∧ playerIndex s' = 0%nat
        ∧ frameIndex s' = Nat.min 9 (frameIndex s + 1)
        ∧ keepStandingPins s' = false)).
Proof.
  unfold onLaneEvent.
  destruct (pushRoll _ _ _ _) as [next|]; [|discriminate].
  destruct (isFrameComplete _ _) eqn:Hdone; cbn [negb].
  - destruct (Z.eqb_spec (Z.of_nat (playerIndex c))
                (Z.of_nat (length (players c)) - 1)) as [Hlast|Hlast];
      cbn [negb]; intros Hs; apply (inj Some) in Hs; subst s';
      cbn [playerIndex frameIndex keepStandingPins resetToken rolling
           players framesByPlayer];
      auto 12.
  - intros Hs; apply (inj Some) in Hs; subst s';
      cbn [playerIndex frameIndex keepStandingPins resetToken rolling
           players framesByPlayer];
      auto 12.
Qed.

(** When the handler is the one of the current render, the roll it
    records is the report clamped to the legal maximum of the active
    frame. *)
Lemma fresh_closure_clamps (s : AppState) (k rem : Z) (fr : Frame) :
  frameAt s (playerIndex s) (frameIndex s) = Some fr →
  rollsInRange fr →
  ∃ s' r,
    onLaneEvent s s (RollEnd k rem) = Some s'
    ∧ frameAt s' (playerIndex s) (frameIndex s)
      = Some {| rolls := rolls fr ++ [r] |}
    ∧ 0 ≤ r ≤ maxPinsThisRoll (frameIndex s) fr
    ∧ (maxPinsThisRoll (frameIndex s) fr < k →
         r = maxPinsThisRoll (frameIndex s) fr)
    ∧ (k < 0 → r = 0)
    ∧ (0 ≤ k ≤ maxPinsThisRoll (frameIndex s) fr → r = k).
Proof.
  intros Hat Hin. unfold frameAt in Hat.
  destruct (framesByPlayer s !! playerIndex s) as [row|] eqn:Hrow;
    [|discriminate].
  assert (Hcur : curFrame s = fr)
    by (unfold curFrame; rewrite Hrow; simpl; rewrite Hat; reflexivity).
  pose proof (maxPinsThisRoll_range (frameIndex s) fr Hin) as Hmax.
  destruct (pushRoll_frame _ _ _ (Z.max 0 (Z.min (maxPins s) k)) _ _ Hrow Hat)
    as (next & row' & Hpush & Hrow' & Hfr').
  assert (Hsome : is_Some (onLaneEvent s s (RollEnd k rem))).
  { unfold onLaneEvent. rewrite Hpush. repeat case_match; eauto. }
  destruct Hsome as [s' Hstep].
  destruct (onLaneEvent_roll s s k rem s' Hstep) as (Hstore & _).
  rewrite Hpush in Hstore. apply (inj Some) in Hstore.
  exists s', (Z.max 0 (Z.min (maxPins s) k)).
  split; [exact Hstep|]. split.
  - unfold frameAt. rewrite <- Hstore, Hrow'. exact Hfr'.
  - unfold maxPins. rewrite Hcur. lia.
Qed.

(** When the handler is the one of the current render, the turn moves as
    the frame just played requires. *)
Lemma fresh_closure_turn (s s' : AppState) (k rem : Z) :
  (frameIndex s ≤ 9)%nat →
  onLaneEvent s s (RollEnd k rem) = Some s' →
  ∃ newFrame,
    frameAt s' (playerIndex s) (frameIndex s) = Some newFrame
    ∧ (frameIndex s ≤ frameIndex s')%nat
    ∧ (isFrameComplete (frameIndex s) newFrame = false →
         playerIndex s' = playerIndex s
         ∧ frameIndex s' = frameIndex s
         ∧ keepStandingPins s' = true)
    ∧ (isFrameComplete (frameIndex s) newFrame = true →
       (playerIndex s + 1 < length (players s))%nat →
         playerIndex s' = (playerIndex s + 1)%nat
         ∧ frameIndex s' = frameIndex s
         ∧ keepStandingPins s' = false)
    ∧ (isFrameComplete (frameIndex s) newFrame = true →
       (playerIndex s + 1)%nat = length (players s) →
         playerIndex s' = 0%nat
         ∧ frameIndex s' = Nat.min 9 (frameIndex s + 1)
         ∧ keepStandingPins s' = false).
Proof.
  intros HF Hstep.
  destruct (onLaneEvent_roll s s k rem s' Hstep)
    as (Hstore & _ & _ & _ & Hturn).
  destruct (pushRoll_lookup _ _ _ _ _ Hstore) as (row & old & Hrow & Hold & Hnext).
  assert (Hcur : curFrame s = old)
    by (unfold curFrame; rewrite Hrow; simpl; rewrite Hold; reflexivity).
  rewrite Hcur in Hturn. cbv zeta in Hturn.
  exists {| rolls := rolls old ++ [Z.max 0 (Z.min (maxPins s) k)] |}.
  split.
  { unfold frameAt. rewrite Hnext.
    rewrite list_lookup_insert_eq by exact (lookup_lt_Some _ _ _ Hrow).
    apply list_lookup_insert_eq. exact (lookup_lt_Some _ _ _ Hold). }
  destruct Hturn as [(Hd & HP & HF' & Hk)
                    |[(Hd & Hnl & HP & HF' & Hk)|(Hd & Hl & HP & HF' & Hk)]];
    rewrite Hd, HP, HF', Hk;
    repeat split; intros; try discriminate; try reflexivity; lia.
Qed.

(** *** The application: every roll result goes to the first handler *)

(** What the first render's handler closes over. *)
Lemma first_render_roll id0 id1 s k rem s' :
  onLaneEvent (initialState id0 id1) s (RollEnd k rem) = Some s' →
  pushRoll (framesByPlayer s) 0 0 (Z.max 0 (Z.min 10 k))
  = Some (framesByPlayer s')
  ∧ players s' = players s
  ∧ frameIndex s' = frameIndex s
  ∧ playerIndex s'
    = (if Z.max 0 (Z.min 10 k) =? 10 then S (playerIndex s) else playerIndex s)
  ∧ keepStandingPins s' = negb (Z.max 0 (Z.min 10 k) =? 10).
Proof.
  intros Hstep.
  destruct (onLaneEvent_roll _ s k rem s' Hstep)
    as (Hstore & Hpl & _ & _ & Hturn).
  change (maxPins (initialState id0 id1)) with 10 in *.
  change (playerIndex (initialState id0 id1)) with 0%nat in *.
  change (frameIndex (initialState id0 id1)) with 0%nat in *.
  split; [exact Hstore|]. split; [exact Hpl|].
  cbv zeta in Hturn.
  change (rolls (curFrame (initialState id0 id1))) with (@nil Z) in Hturn.
  change (length (players (initialState id0 id1))) with 2%nat in Hturn.
  set (knocked := Z.max 0 (Z.min 10 k)) in *.
  assert (Hdone : isFrameComplete 0 {| rolls := [] ++ [knocked] |}
                  = (knocked =? 10)).
  { unfold isFrameComplete; simpl.
    destruct (Z.eqb_spec knocked 10) as [->|Hne].
    - rewrite bool_decide_eq_true_2; reflexivity.
    - rewrite bool_decide_eq_false_2; [reflexivity | congruence]. }
  rewrite Hdone in Hturn.
  destruct Hturn as [(Hd & HP & HF' & Hk)
                    |[(Hd & Hnl & HP & HF' & Hk)|(Hd & Hl & HP & HF' & Hk)]];
    [| |lia]; rewrite Hd, HP, HF', Hk; replace (playerIndex s + 1)%nat
      with (S (playerIndex s)) by lia; auto.
Qed.

Lemma played_fresh s n :
  framesByPlayer s = makeInitialFrames n →
  length (players s) = n →
  (2 ≤ n)%nat →
  frameIndex s = 0%nat →
  played s.
Proof.
  intros Hf Hn H2 HF. split.
  - lia.
  - rewrite Hf, makeInitialFrames_length. lia.
  - exact HF.
  - rewrite Hf. apply makeInitialFrames_store.
  - intros p f fr Hat _. exact (frameAt_initial s n p f fr Hf Hat).
Qed.

Lemma reachable_played id0 id1 s : reachable id0 id1 s → played s.
Proof.
  induction 1 as [| s e s' _ IH Hstep | s newId newName _ IH
                  | s confirmed _ IH].
  - apply (played_fresh _ 2); reflexivity || lia.
  - destruct IH as [Hp Hrows HF Hst Hfirst]. destruct e as [|k rem].
    + cbn [onLaneEvent] in Hstep. apply (inj Some) in Hstep. subst s'.
      split; assumption.
    + destruct (first_render_roll id0 id1 s k rem s' Hstep)
        as (Hstore & Hpl & HF' & _).
      assert (Hk : 0 ≤ Z.max 0 (Z.min 10 k) ≤ 10) by lia.
      destruct (pushRoll_store _ _ _ _ _ Hst Hk Hstore) as [Hlen Hnext].
      destruct (pushRoll_lookup _ _ _ _ _ Hstore)
        as (row & old & Hrow & Hold & Hnext').
      split; [congruence | congruence | congruence | exact Hnext |].
      intros p f fr Hat Hne. apply (Hfirst p f); [|exact Hne].
      unfold frameAt in *. rewrite Hnext' in Hat.
      destruct (decide (p = 0%nat)) as [->|Hp0].
      * rewrite list_lookup_insert_eq in Hat
          by exact (lookup_lt_Some _ _ _ Hrow).
        rewrite Hrow. rewrite list_lookup_insert_ne in Hat; [exact Hat|].
        destruct Hne; congruence.
      * rewrite list_lookup_insert_ne in Hat by congruence. exact Hat.
  - unfold addPlayer. case_bool_decide; [exact IH|].
    apply (played_fresh _ (length (players s
             ++ [ {| id := newId; name := newName |} ])));
      [reflexivity | reflexivity | | reflexivity].
    rewrite length_app. pose proof (pl_players _ IH). simpl. lia.
  - unfold resetGame. destruct confirmed; cbn [negb]; [|exact IH].
    apply (played_fresh _ (length (players s)));
      [reflexivity | reflexivity | exact (pl_players _ IH) | reflexivity].
Qed.

Lemma reachable_rollAll id0 id1 ks : ∀ s s',
  reachable id0 id1 s →
  rollAll (initialState id0 id1) s ks = Some s' →
  reachable id0 id1 s'.
Proof.
  induction ks as [|k ks IH]; intros s s' Hreach; cbn [rollAll].
  - intros H. apply (inj Some) in H. subst s'. exact Hreach.
  - destruct (onLaneEvent (initialState id0 id1) s (RollEnd k (10 - k)))
      as [s1|] eqn:E; [|discriminate].
    apply IH. exact (reach_event id0 id1 s _ s1 Hreach E).
Qed.

Lemma reachable_afterRolls ks : reachable "a" "b" (afterRolls ks).
Proof.
  unfold afterRolls.
  destruct (rollAll (initialState "a" "b") (initialState "a" "b") ks)
    as [s'|] eqn:E; simpl.
  - exact (reachable_rollAll "a" "b" ks _ s' (reach_init "a" "b") E).
  - apply reach_init.
Qed.

(** C2: the roll recorded in the running application is not clamped to the
    legal maximum of the active frame.  After the rolls 4 and 6 the active
    frame is player 0's frame 0 with the rolls [4,6] and the current legal
    maximum is 6; LaneCanvas has set up a full rack, and a report of 8 is
    recorded as 8, because the handler that LaneCanvas calls is the first
    render's, whose maximum is 10. *)
Theorem stale_closure_records_raw :
  rollAll (initialState "a" "b") (initialState "a" "b") [4; 6]
  = Some (afterRolls [4; 6])
  ∧ playerIndex (afterRolls [4; 6]) = 0%nat
  ∧ frameIndex (afterRolls [4; 6]) = 0%nat
  ∧ curFrame (afterRolls [4; 6]) = {| rolls := [4; 6] |}
  ∧ maxPins (afterRolls [4; 6]) = 6
  ∧ onLaneEvent (initialState "a" "b") (afterRolls [4; 6]) (RollEnd 8 2)
    = Some (afterRolls [4; 6; 8])
  ∧ frameAt (afterRolls [4; 6; 8]) 0 0 = Some {| rolls := [4; 6; 8] |}
  ∧ maxPins (initialState "a" "b") = 10.
Proof. vm_compute. repeat split. Qed.

(** C5: the running application does not rotate the turn.  After the rolls
    0 and 3 player 0's frame 0 is complete, yet player 0 stays active with
    the carry-over rack; with three players, three strikes move the player
    index to 1, 2 and 3 (nobody) while the frame index stays 0 and every
    roll lands in player 0's frame 0.  The handler that LaneCanvas calls is
    the first render's: it judges completion on an empty frame and sees
    player 0 of two players. *)
Theorem stale_closure_no_rotation :
  turnAfter (initialState "a" "b") (initialState "a" "b") [0; 3]
  = Some (0%nat, 0%nat)
  ∧ frameAt (afterRolls [0; 3]) 0 0 = Some {| rolls := [0; 3] |}
  ∧ isFrameComplete 0 {| rolls := [0; 3] |} = true
  ∧ keepStandingPins (afterRolls [0; 3]) = true
  ∧ length (players threePlayerGame) = 3%nat
  ∧ turnAfter (initialState "p0" "p1") threePlayerGame [10]
    = Some (1%nat, 0%nat)
  ∧ turnAfter (initialState "p0" "p1") threePlayerGame [10; 10]
    = Some (2%nat, 0%nat)
  ∧ turnAfter (initialState "p0" "p1") threePlayerGame [10; 10; 10]
    = Some (3%nat, 0%nat)
  ∧ (framesByPlayer
       <$> rollAll (initialState "p0" "p1") threePlayerGame [10; 10; 10])
    = Some [ {| rolls := [10; 10; 10] |} :: replicate 9 emptyFrame;
             replicate 10 emptyFrame;
             replicate 10 emptyFrame ].
Proof. vm_compute. repeat split. Qed.

(** ** Further properties of the scoring engine *)

Lemma scoreFrame_ext rs rs' st :
  (∀ i, rollAt rs i = rollAt rs' i) → scoreFrame rs st = scoreFrame rs' st.
Proof.
  intros E. unfold scoreFrame. rewrite !E. reflexivity.
Qed.

Lemma scoreLoop_ext rs rs' n st :
  (∀ i, rollAt rs i = rollAt rs' i) → scoreLoop rs n st = scoreLoop rs' n st.
Proof.
  intros E. revert st. induction n as [|n IH]; intros st; simpl; [reflexivity|].
  rewrite (scoreFrame_ext rs rs' st E). apply IH.
Qed.

Lemma rollAt_app_zeros rs n i :
  rollAt (rs ++ replicate n 0) i = rollAt rs i.
Proof.
  unfold rollAt. destruct (decide (i < length rs)%nat) as [Hlt|Hge].
  - rewrite lookup_app_l by exact Hlt. reflexivity.
  - rewrite lookup_app_r by lia. rewrite (lookup_ge_None_2 rs i) by lia.
    destruct (replicate n 0 !! (i - length rs)%nat) as [z|] eqn:Ez;
      [|reflexivity].
    apply lookup_replicate in Ez as [-> _]. reflexivity.
Qed.

Lemma score_flat_gutters (frames frames' : list Frame) (n : nat) :
  flattenRolls frames' = flattenRolls frames ++ replicate n 0 →
  computeBowlingScore frames' = computeBowlingScore frames.
Proof.
  intros E. unfold computeBowlingScore. rewrite E.
  rewrite (scoreLoop_ext _ (flattenRolls frames)); [reflexivity|].
  intros i. apply rollAt_app_zeros.
Qed.

(** X1: gutter rolls at the end of the last frame that holds rolls never
    change the score: a roll of 0 counts exactly like a roll not yet made. *)
Theorem trailing_gutters_ignored
    (pre : list Frame) (rs : list Z) (n : nat) (post : list Frame) :
  (length pre < 10)%nat →
  forallb noRolls post = true →
  computeBowlingScore (pre ++ {| rolls := rs ++ replicate n 0 |} :: post)
  = computeBowlingScore (pre ++ {| rolls := rs |} :: post).
Proof.
  intros Hlen Hpost. apply (score_flat_gutters _ _ n).
  rewrite !flattenRolls_split by exact Hlen. cbn [rolls].
  rewrite (flat_map_noRolls post _ Hpost), !app_nil_r, !app_assoc.
  reflexivity.
Qed.

Lemma trailing_gutters_ignored_witness :
  computeBowlingScore
    (replicate 9 strikeFrame ++ {| rolls := [10; 10] ++ replicate 1 0 |} :: [])
  = computeBowlingScore
      (replicate 9 strikeFrame ++ {| rolls := [10; 10] |} :: []).
Proof.
  apply (trailing_gutters_ignored (replicate 9 strikeFrame) [10; 10] 1 []);
    [simpl; lia | reflexivity].
Defined.

Lemma rollAt_pinCount rs i : Forall pinCount rs → 0 ≤ rollAt rs i ≤ 10.
Proof.
  intros H. unfold rollAt. destruct (rs !! i) as [r|] eqn:E; simpl; [|lia].
  exact (Forall_lookup_1 _ _ _ _ H E).
Qed.

Lemma pushedScore_range rs i : Forall pinCount rs → 0 ≤ pushedScore rs i ≤ 30.
Proof.
  intros H. unfold pushedScore.
  pose proof (rollAt_pinCount rs i H).
  pose proof (rollAt_pinCount rs (i + 1) H).
  pose proof (rollAt_pinCount rs (i + 2) H).
  repeat case_match; lia.
Qed.

Lemma scoreLoop_range rs n st :
  Forall pinCount rs →
  Forall (λ x, 0 ≤ x ≤ 30) (perFrame st) →
  Forall (λ x, 0 ≤ x ≤ 30) (perFrame (scoreLoop rs n st)).
Proof.
  intros Hrs. revert st. induction n as [|n IH]; intros st Hst; simpl;
    [exact Hst|].
  apply IH. rewrite scoreFrame_perFrame. apply Forall_app. split; [exact Hst|].
  constructor; [apply pushedScore_range, Hrs | constructor].
Qed.

Lemma sumZ_range l :
  Forall (λ x, 0 ≤ x ≤ 30) l → 0 ≤ sumZ l ≤ 30 * Z.of_nat (length l).
Proof.
  unfold sumZ. induction 1 as [|x l Hx _ IH]; simpl; lia.
Qed.

Lemma flat_map_pinCount (frames : list Frame) :
  Forall (λ f, Forall pinCount (rolls f)) frames →
  Forall pinCount (flat_map rolls frames).
Proof.
  induction 1 as [|f frames Hf _ IH]; simpl; [constructor|].
  apply Forall_app. split; assumption.
Qed.

Lemma perFrame_range (frames : list Frame) :
  Forall (λ f, Forall pinCount (rolls f)) frames →
  Forall (λ x, 0 ≤ x ≤ 30) (scPerFrame (computeBowlingScore frames)).
Proof.
  intros H. unfold computeBowlingScore; cbn [scPerFrame].
  apply scoreLoop_range; [|constructor].
  unfold flattenRolls. apply flat_map_pinCount, Forall_take, H.
Qed.

(** X2: when every roll of every frame is a pin count between 0 and 10,
    each per-frame score is between 0 and 30 and the total is between 0
    and 300. *)
Theorem score_bounds (frames : list Frame) :
  Forall (λ f, Forall pinCount (rolls f)) frames →
  Forall (λ x, 0 ≤ x ≤ 30) (scPerFrame (computeBowlingScore frames))
  ∧ 0 ≤ scTotal (computeBowlingScore frames) ≤ 300.
Proof.
  intros H. pose proof (perFrame_range frames H) as Hpf.
  split; [exact Hpf|].
  destruct (score_shape_aux frames) as [L T]. rewrite T.
  pose proof (sumZ_range _ Hpf) as B. rewrite L in B. lia.
Qed.

Lemma score_bounds_witness :
  Forall (λ x, 0 ≤ x ≤ 30) (scPerFrame (computeBowlingScore allStrikes))
  ∧ 0 ≤ scTotal (computeBowlingScore allStrikes) ≤ 300.
Proof.
  apply (score_bounds allStrikes).
  unfold allStrikes, strikeFrame, pinCount. simpl.
  repeat (constructor; [repeat (constructor; [lia|]); constructor|]).
  constructor.
Defined.

Lemma flattenRolls_noRolls (frames : list Frame) :
  forallb noRolls frames = true → flattenRolls frames = [].
Proof.
  intros H. unfold flattenRolls. exact (flat_map_noRolls frames _ H).
Qed.

(** X3: a game in which no frame holds a roll, the empty frame list
    included, scores 0 in each of the ten slots and 0 in total. *)
Theorem empty_game_scores_zero (frames : list Frame) :
  forallb noRolls frames = true →
  computeBowlingScore frames
  = {| scTotal := 0; scPerFrame := replicate 10 0 |}.
Proof.
  intros H. unfold computeBowlingScore.
  rewrite (flattenRolls_noRolls frames H). reflexivity.
Qed.

Lemma empty_game_scores_zero_witness :
  computeBowlingScore (replicate 10 emptyFrame)
  = {| scTotal := 0; scPerFrame := replicate 10 0 |}.
Proof.
  apply (empty_game_scores_zero (replicate 10 emptyFrame)). reflexivity.
Defined.

(** X4: after finished frames, a strike scores 10 plus the next two rolls
    of the flattened sequence, a roll not yet made counting as 0. *)
Theorem strike_score (pre post : list Frame) :
  forallb closedFrame pre = true →
  (length pre < 10)%nat →
  scPerFrame (computeBowlingScore (pre ++ strikeFrame :: post))
    !! length pre
  = Some (10 + rollAt (rollsAfter pre post) 0 + rollAt (rollsAfter pre post) 1).
Proof.
  intros Hc Hlen. rewrite slot_after_closed by assumption.
  unfold pushedScore, rollAt, rollsAfter. reflexivity.
Qed.

Lemma strike_score_witness :
  scPerFrame
    (computeBowlingScore
       ([ {| rolls := [4; 3] |} ] ++ strikeFrame
          :: [ {| rolls := [7; 2] |}; {| rolls := [5] |} ]))
    !! 1%nat = Some 19.
Proof.
  apply (strike_score [ {| rolls := [4; 3] |} ]
           [ {| rolls := [7; 2] |}; {| rolls := [5] |} ]);
    [reflexivity | simpl; lia].
Defined.

(** X5: after finished frames, a spare [a, b] scores 10 plus the next roll
    of the flattened sequence, a roll not yet made counting as 0. *)
Theorem spare_score (pre : list Frame) (a b : Z) (post : list Frame) :
  forallb closedFrame pre = true →
  (length pre < 10)%nat →
  a ≠ 10 →
  a + b = 10 →
  scPerFrame (computeBowlingScore (pre ++ {| rolls := [a; b] |} :: post))
    !! length pre
  = Some (10 + rollAt (rollsAfter pre post) 0).
Proof.
  intros Hc Hlen Ha Hab. rewrite slot_after_closed by assumption.
  unfold pushedScore, rollAt, rollsAfter; simpl.
  destruct (Z.eqb_spec a 10); [contradiction|].
  destruct (Z.eqb_spec (a + b) 10); [reflexivity | contradiction].
Qed.

Lemma spare_score_witness :
  scPerFrame
    (computeBowlingScore
       ([strikeFrame] ++ {| rolls := [6; 4] |} :: [ {| rolls := [7] |} ]))
    !! 1%nat = Some 17.
Proof.
  apply (spare_score [strikeFrame] 6 4 [ {| rolls := [7] |} ]);
    [reflexivity | simpl; lia | lia | lia].
Defined.

(** ** Further properties of the frame predicates *)

Lemma maxPinsThisRoll_lt9 frameIndex f :
  (frameIndex < 9)%nat →
  maxPinsThisRoll frameIndex f
  = if (length (rolls f) =? 0)%nat then 10
    else Z.max 0 (10 - rollAt (rolls f) 0).
Proof.
  intros H. unfold maxPinsThisRoll.
  destruct (Nat.ltb_spec frameIndex 9); [reflexivity | lia].
Qed.

Lemma maxPins_bounds_aux frameIndex f :
  ((frameIndex < 9)%nat → 0 ≤ maxPinsThisRoll frameIndex f)
  ∧ (Forall pinCount (rolls f) → 0 ≤ maxPinsThisRoll frameIndex f ≤ 10).
Proof.
  split.
  - intros H. rewrite maxPinsThisRoll_lt9 by exact H. case_match; lia.
  - apply maxPinsThisRoll_range.
Qed.

(** X6: in frames 0-8 [maxPinsThisRoll] is never negative, whatever the
    frame holds; and for every frame index, when the rolls of the frame are
    pin counts between 0 and 10 the result is between 0 and 10. *)
Theorem maxPins_bounds (frameIndex : nat) (f : Frame) :
  Forall pinCount (rolls f) →
  0 ≤ maxPinsThisRoll frameIndex f ≤ 10
  ∧ ∀ g : Frame, (frameIndex < 9)%nat → 0 ≤ maxPinsThisRoll frameIndex g.
Proof.
  intros H. split.
  - apply maxPins_bounds_aux, H.
  - intros g Hlt. destruct (maxPins_bounds_aux frameIndex g) as [Hg _].
    exact (Hg Hlt).
Qed.

Lemma maxPins_bounds_witness :
  0 ≤ maxPinsThisRoll 9 {| rolls := [10; 4] |} ≤ 10
  ∧ ∀ g : Frame, (9 < 9)%nat → 0 ≤ maxPinsThisRoll 9 g.
Proof.
  apply (maxPins_bounds 9 {| rolls := [10; 4] |}).
  unfold pinCount; simpl. repeat (constructor; [lia|]). constructor.
Defined.

Lemma legalFrom_pinCount frameIndex todo : ∀ before,
  Forall pinCount before →
  legalFrom frameIndex before todo = true →
  Forall pinCount todo.
Proof.
  induction todo as [|r todo IH]; intros before Hb Hl; [constructor|].
  apply legalFrom_cons in Hl as [Hr Hl].
  pose proof (maxPinsThisRoll_range frameIndex {| rolls := before |} Hb) as Hm.
  assert (Hpr : pinCount r) by (unfold pinCount; lia).
  constructor; [exact Hpr|].
  apply (IH (before ++ [r])); [|exact Hl].
  apply Forall_app. split; [exact Hb | constructor; [exact Hpr | constructor]].
Qed.

Lemma legalFrom_first frameIndex a todo : ∀ before,
  (frameIndex < 9)%nat →
  pinCount a →
  legalFrom frameIndex (a :: before) todo = true →
  Forall (λ r, a + r ≤ 10) todo.
Proof.
  induction todo as [|r todo IH]; intros before Hlt Ha Hl; [constructor|].
  apply legalFrom_cons in Hl as [Hr Hl].
  rewrite maxPinsThisRoll_lt9 in Hr by exact Hlt.
  unfold rollAt in Hr; simpl in Hr. unfold pinCount in Ha.
  constructor; [lia|].
  exact (IH (before ++ [r]) Hlt Ha Hl).
Qed.

Lemma legalRolls_pinCount frameIndex rs :
  legalRolls frameIndex rs = true → Forall pinCount rs.
Proof.
  intros Hl. apply (legalFrom_pinCount frameIndex rs []); [constructor|].
  exact Hl.
Qed.

(** X7: legal rolls are pin counts between 0 and 10, and in frames 0-8
    the first roll plus any later roll of the same frame is at most 10. *)
Theorem legal_rolls_shape (frameIndex : nat) (rs : list Z) :
  legalRolls frameIndex rs = true →
  Forall pinCount rs
  ∧ ∀ a rest, (frameIndex < 9)%nat → rs = a :: rest →
      Forall (λ r, a + r ≤ 10) rest.
Proof.
  intros Hl. pose proof (legalRolls_pinCount frameIndex rs Hl) as Hpc.
  unfold legalRolls in Hl. split; [exact Hpc|].
  intros a rest Hlt ->.
  apply legalFrom_cons in Hl as [_ Hl]. apply Forall_cons in Hpc as [Ha _].
  exact (legalFrom_first frameIndex a rest [] Hlt Ha Hl).
Qed.

Lemma legal_rolls_shape_witness :
  Forall pinCount [3; 7]
  ∧ ∀ a rest, (2 < 9)%nat → [3; 7] = a :: rest →
      Forall (λ r, a + r ≤ 10) rest.
Proof.
  apply (legal_rolls_shape 2 [3; 7]). reflexivity.
Defined.

Lemma legal_prefix2 frameIndex a b rest :
  legalRolls frameIndex (a :: b :: rest) = true →
  0 ≤ a ≤ 10
  ∧ 0 ≤ b ≤ maxPinsThisRoll frameIndex {| rolls := [a] |}.
Proof.
  unfold legalRolls. intros Hl.
  apply legalFrom_cons in Hl as [Ha Hl].
  apply legalFrom_cons in Hl as [Hb _].
  pose proof (maxPinsThisRoll_range frameIndex {| rolls := [] |}) as Hm.
  unfold rollsInRange in Hm; simpl in Hm.
  specialize (Hm (Forall_nil_2 _)). simpl in Hb. split; [lia | exact Hb].
Qed.

Lemma tenth_cases (rs : list Z) :
  legalRolls 9 rs = true →
  (isFrameComplete 9 {| rolls := rs |} = false
   ∧ 1 ≤ maxPinsThisRoll 9 {| rolls := rs |})
  ∨ (isFrameComplete 9 {| rolls := rs |} = true
     ∧ maxPinsThisRoll 9 {| rolls := rs |} = 0).
Proof.
  intros Hl. destruct rs as [|a [|b [|c l]]].
  - left. split; [reflexivity | unfold maxPinsThisRoll; simpl; lia].
  - unfold legalRolls in Hl. apply legalFrom_cons in Hl as [Ha _].
    change (maxPinsThisRoll 9 {| rolls := [] |}) with 10 in Ha.
    left. split; [reflexivity|]. rewrite maxPins_tenth_one.
    destruct (Z.eqb_spec a 10); lia.
  - apply legal_prefix2 in Hl as [Ha Hb]. rewrite maxPins_tenth_one in Hb.
    unfold isFrameComplete, maxPinsThisRoll, rollAt; simpl.
    destruct (Z.eqb_spec a 10) as [->|Hne]; simpl.
    + left. split; [reflexivity|]. destruct (Z.eqb_spec b 10); lia.
    + destruct (Z.eqb_spec (a + b) 10); [left | right];
        (split; [reflexivity | lia]).
  - right. unfold isFrameComplete, maxPinsThisRoll, rollAt; simpl.
    destruct ((a =? 10) || (a + b =? 10)); split; reflexivity.
Qed.

Lemma tenth_index_ge9 frameIndex f :
  (9 ≤ frameIndex)%nat →
  isFrameComplete frameIndex f = isFrameComplete 9 f
  ∧ maxPinsThisRoll frameIndex f = maxPinsThisRoll 9 f.
Proof.
  intros H. unfold isFrameComplete, maxPinsThisRoll.
  destruct (Nat.ltb_spec frameIndex 9); [lia|]. split; reflexivity.
Qed.

Lemma legalFrom_ge9 frameIndex todo : ∀ before,
  (9 ≤ frameIndex)%nat →
  legalFrom frameIndex before todo = legalFrom 9 before todo.
Proof.
  induction todo as [|r todo IH]; intros before H; [reflexivity|].
  cbn [legalFrom]. rewrite (IH _ H).
  destruct (tenth_index_ge9 frameIndex {| rolls := before |} H) as [_ ->].
  reflexivity.
Qed.

(** X8: in the 10th frame with legal rolls, the frame is complete exactly
    when [maxPinsThisRoll] is 0. *)
Theorem tenth_frame_closed_iff (rs : list Z) :
  legalRolls 9 rs = true →
  isFrameComplete 9 {| rolls := rs |} = true
  ↔ maxPinsThisRoll 9 {| rolls := rs |} = 0.
Proof.
  intros Hl.
  destruct (tenth_cases rs Hl) as [[Hinc Hpos]|[Hdone Hzero]].
  - split; intros H; [congruence | lia].
  - split; intros _; assumption.
Qed.

Lemma tenth_frame_closed_iff_witness :
  isFrameComplete 9 {| rolls := [10; 7; 2] |} = true
  ↔ maxPinsThisRoll 9 {| rolls := [10; 7; 2] |} = 0.
Proof.
  apply (tenth_frame_closed_iff [10; 7; 2]). reflexivity.
Defined.

(** X9: whatever the frame index, a frame with legal rolls that is not
    complete admits at least one more pin: [maxPinsThisRoll] is between 1
    and 10. *)
Theorem unfinished_frame_allows_roll (frameIndex : nat) (rs : list Z) :
  legalRolls frameIndex rs = true →
  isFrameComplete frameIndex {| rolls := rs |} = false →
  1 ≤ maxPinsThisRoll frameIndex {| rolls := rs |} ≤ 10.
Proof.
  intros Hl Hinc.
  pose proof (legalRolls_pinCount frameIndex rs Hl) as Hpc.
  pose proof (maxPinsThisRoll_range frameIndex {| rolls := rs |} Hpc) as Hm.
  split; [|lia].
  destruct (Nat.ltb_spec frameIndex 9) as [Hlt|Hge].
  - rewrite maxPinsThisRoll_lt9 by exact Hlt.
    unfold isFrameComplete in Hinc; cbn [rolls] in *.
    destruct (Nat.ltb_spec frameIndex 9); [|lia].
    destruct rs as [|a [|b l]]; simpl in *; [lia | | ].
    + case_bool_decide as Hd; [discriminate|].
      apply Forall_cons in Hpc as [Ha _]. unfold pinCount, rollAt in *.
      simpl. assert (a ≠ 10) by congruence. lia.
    + case_bool_decide; discriminate.
  - destruct (tenth_index_ge9 frameIndex {| rolls := rs |} Hge) as [Ec Em].
    rewrite Ec in Hinc. rewrite Em in Hm |- *.
    unfold legalRolls in Hl. rewrite legalFrom_ge9 in Hl by exact Hge.
    destruct (tenth_cases rs Hl) as [[_ Hpos]|[Hdone _]];
      [exact Hpos | congruence].
Qed.

Lemma unfinished_frame_allows_roll_witness :
  1 ≤ maxPinsThisRoll 4 {| rolls := [6] |} ≤ 10.
Proof.
  apply (unfinished_frame_allows_roll 4 [6]); reflexivity.
Defined.

Lemma isFrameComplete_nil frameIndex :
  isFrameComplete frameIndex {| rolls := [] |} = false.
Proof.
  unfold isFrameComplete; simpl. destruct (frameIndex <? 9)%nat; reflexivity.
Qed.

(** C6, amended: with legal rolls, a complete frame of index 0-8 has
    [maxPinsThisRoll] equal to 10 minus its first roll, which is 0 exactly
    when the frame is a strike (a completed open frame such as [3,4] gets
    7); in the 10th frame a complete frame always has 0. *)
Theorem closed_frame_maxPins (frameIndex : nat) (rs : list Z) :
  legalRolls frameIndex rs = true →
  isFrameComplete frameIndex {| rolls := rs |} = true →
  ((frameIndex < 9)%nat →
     maxPinsThisRoll frameIndex {| rolls := rs |} = 10 - rollAt rs 0
     ∧ (maxPinsThisRoll frameIndex {| rolls := rs |} = 0
        ↔ rollAt rs 0 = 10))
  ∧ ((9 ≤ frameIndex)%nat →
       maxPinsThisRoll frameIndex {| rolls := rs |} = 0).
Proof.
  intros Hl Hdone. split.
  - intros Hlt. pose proof (legalRolls_pinCount frameIndex rs Hl) as Hpc.
    pose proof (rollAt_pinCount rs 0 Hpc) as H0.
    rewrite maxPinsThisRoll_lt9 by exact Hlt. cbn [rolls].
    destruct rs as [|a rest].
    + rewrite isFrameComplete_nil in Hdone. discriminate Hdone.
    + cbn [length Nat.eqb]. lia.
  - intros Hge.
    destruct (tenth_index_ge9 frameIndex {| rolls := rs |} Hge) as [Ec Em].
    rewrite Ec in Hdone. rewrite Em.
    unfold legalRolls in Hl. rewrite legalFrom_ge9 in Hl by exact Hge.
    destruct (tenth_cases rs Hl) as [[Hinc _]|[_ Hzero]];
      [congruence | exact Hzero].
Qed.

Lemma closed_frame_maxPins_witness :
  ((0 < 9)%nat →
     maxPinsThisRoll 0 {| rolls := [3; 4] |} = 10 - rollAt [3; 4] 0
     ∧ (maxPinsThisRoll 0 {| rolls := [3; 4] |} = 0
        ↔ rollAt [3; 4] 0 = 10))
  ∧ ((9 ≤ 0)%nat → maxPinsThisRoll 0 {| rolls := [3; 4] |} = 0).
Proof.
  apply (closed_frame_maxPins 0 [3; 4]); reflexivity.
Defined.

(** ** Further properties of the turn controller *)

(** X10: in every state of the running application, where each roll
    result is handled by the first render's handler, the store has one row
    of ten frames per player, with at least two players, the frame index
    is 0, every stored roll is between 0 and 10, and every frame other
    than player 0's frame 0 is empty. *)
Theorem reachable_store_shape (id0 id1 : string) (s : AppState) :
  reachable id0 id1 s →
  length (framesByPlayer s) = length (players s)
  ∧ (2 ≤ length (players s))%nat
  ∧ Forall (λ row, length row = 10%nat) (framesByPlayer s)
  ∧ frameIndex s = 0%nat
  ∧ ∀ p f fr, frameAt s p f = Some fr →
      Forall pinCount (rolls fr)
      ∧ (p ≠ 0%nat ∨ f ≠ 0%nat → rolls fr = []).
Proof.
  intros Hreach. destruct (reachable_played id0 id1 s Hreach)
    as [Hp Hrows HF Hst Hfirst].
  split; [exact Hrows|]. split; [exact Hp|]. split.
  { eapply Forall_impl; [exact Hst|]. intros r [Hr _]. exact Hr. }
  split; [exact HF|].
  intros p f fr Hat. split; [|exact (Hfirst p f fr Hat)].
  unfold frameAt in Hat.
  destruct (framesByPlayer s !! p) as [row|] eqn:Hrow; [|discriminate].
  destruct (Forall_lookup_1 _ _ _ _ Hst Hrow) as [_ Hall].
  exact (Forall_lookup_1 _ _ _ _ Hall Hat).
Qed.

Lemma reachable_store_shape_witness :
  let s := afterRolls [4; 6; 8] in
  length (framesByPlayer s) = length (players s)
  ∧ (2 ≤ length (players s))%nat
  ∧ Forall (λ row, length row = 10%nat) (framesByPlayer s)
  ∧ frameIndex s = 0%nat
  ∧ ∀ p f fr, frameAt s p f = Some fr →
      Forall pinCount (rolls fr)
      ∧ (p ≠ 0%nat ∨ f ≠ 0%nat → rolls fr = []).
Proof.
  intros s. apply (reachable_store_shape "a" "b" s).
  apply reachable_afterRolls.
Defined.

(** X15: a roll result handled by the handler of a render [c], in any
    state, appends the report clamped to between 0 and the maximum of [c]
    to the stored frame at the player and frame index of [c]; it leaves
    the roster and every other frame as they were, raises the reset token
    by one and clears the rolling flag; no frame ever loses a roll. *)
Theorem roll_event_store (c s s' : AppState) (k rem : Z) :
  onLaneEvent c s (RollEnd k rem) = Some s' →
  players s' = players s
  ∧ resetToken s' = resetToken s + 1
  ∧ rolling s' = false
  ∧ (∃ old,
       frameAt s (playerIndex c) (frameIndex c) = Some old
       ∧ frameAt s' (playerIndex c) (frameIndex c)
         = Some {| rolls := rolls old ++ [Z.max 0 (Z.min (maxPins c) k)] |})
  ∧ (∀ p f, p ≠ playerIndex c ∨ f ≠ frameIndex c →
       frameAt s' p f = frameAt s p f)
  ∧ (∀ p f fr, frameAt s p f = Some fr →
       ∃ fr', frameAt s' p f = Some fr' ∧ rolls fr `prefix_of` rolls fr').
Proof.
  intros Hstep.
  destruct (onLaneEvent_roll c s k rem s' Hstep)
    as (Hstore & Hpl & Htok & Hroll & _).
  destruct (pushRoll_lookup _ _ _ _ _ Hstore) as (row & old & Hrow & Hold & Hnext).
  pose proof (lookup_lt_Some _ _ _ Hrow) as Hp.
  pose proof (lookup_lt_Some _ _ _ Hold) as Hf.
  set (new := {| rolls := rolls old ++ [Z.max 0 (Z.min (maxPins c) k)] |}) in *.
  assert (Hnew : frameAt s' (playerIndex c) (frameIndex c) = Some new).
  { unfold frameAt. rewrite Hnext, list_lookup_insert_eq by exact Hp.
    apply list_lookup_insert_eq. exact Hf. }
  assert (Hother : ∀ p f, p ≠ playerIndex c ∨ f ≠ frameIndex c →
            frameAt s' p f = frameAt s p f).
  { intros p f Hne. unfold frameAt. rewrite Hnext.
    destruct (decide (p = playerIndex c)) as [->|Hpne].
    - rewrite list_lookup_insert_eq by exact Hp. rewrite Hrow.
      apply list_lookup_insert_ne. destruct Hne; congruence.
    - rewrite list_lookup_insert_ne by congruence. reflexivity. }
  split; [exact Hpl|]. split; [exact Htok|]. split; [exact Hroll|].
  split; [|split; [exact Hother|]].
  - exists old. split; [|exact Hnew]. unfold frameAt. rewrite Hrow. exact Hold.
  - intros p f fr Hat.
    destruct (decide (p = playerIndex c ∧ f = frameIndex c)) as [[-> ->]|Hne].
    + exists new. split; [exact Hnew|].
      unfold frameAt in Hat. rewrite Hrow, Hold in Hat.
      apply (inj Some) in Hat. subst fr. apply prefix_app_r. reflexivity.
    + exists fr. split; [|reflexivity]. rewrite Hother; [exact Hat|].
      destruct (decide (p = playerIndex c)) as [->|Hpne];
        [right; intros ->; apply Hne; auto | left; exact Hpne].
Qed.

Lemma roll_event_store_witness :
  players (afterRolls [4; 6; 8]) = players (afterRolls [4; 6])
  ∧ resetToken (afterRolls [4; 6; 8]) = resetToken (afterRolls [4; 6]) + 1
  ∧ rolling (afterRolls [4; 6; 8]) = false.
Proof.
  destruct (roll_event_store (initialState "a" "b") (afterRolls [4; 6])
              (afterRolls [4; 6; 8]) 8 2) as (Hp & Ht & Hr & _);
    [vm_compute; reflexivity|].
  split; [exact Hp|]. split; [exact Ht | exact Hr].
Defined.

Lemma fresh_scores_zero s n :
  framesByPlayer s = makeInitialFrames n →
  Forall (λ r, rowTotal r = 0 ∧ rowPerFrame r = replicate 10 0) (scores s).
Proof.
  intros E. apply Forall_lookup. intros i r Hr. unfold scores in Hr.
  rewrite list_lookup_imap in Hr.
  destruct (players s !! i) as [pl|]; [|discriminate].
  apply (inj Some) in Hr. subst r. cbn [rowTotal rowPerFrame].
  rewrite E. unfold makeInitialFrames.
  assert (Hempty : forallb noRolls
            (default [] (replicate n (replicate 10 {| rolls := [] |}) !! i))
          = true).
  { destruct (replicate n _ !! i) as [row|] eqn:Hrow; [|reflexivity].
    apply lookup_replicate in Hrow as [-> _]. reflexivity. }
  unfold computeBowlingScore. rewrite (flattenRolls_noRolls _ Hempty).
  split; reflexivity.
Qed.

(** X17: adding a player with a non-empty name appends the player and
    starts a new game: one empty row of ten frames per player, player 0 on
    frame 0 with a full rack, every score at 0.  With an empty name nothing
    changes. *)
Theorem addPlayer_new_game (s : AppState) (newId newName : string) :
  newName ≠ EmptyString →
  players (addPlayer s newId newName)
  = players s ++ [ {| id := newId; name := newName |} ]
  ∧ framesByPlayer (addPlayer s newId newName)
    = replicate (S (length (players s))) (replicate 10 emptyFrame)
  ∧ playerIndex (addPlayer s newId newName) = 0%nat
  ∧ frameIndex (addPlayer s newId newName) = 0%nat
  ∧ keepStandingPins (addPlayer s newId newName) = false
  ∧ resetToken (addPlayer s newId newName) = resetToken s + 1
  ∧ Forall (λ r, rowTotal r = 0 ∧ rowPerFrame r = replicate 10 0)
      (scores (addPlayer s newId newName))
  ∧ addPlayer s newId EmptyString = s.
Proof.
  intros Hne.
  assert (E : addPlayer s newId newName
    = {| players := players s ++ [ {| id := newId; name := newName |} ];
         framesByPlayer :=
           makeInitialFrames
             (length (players s ++ [ {| id := newId; name := newName |} ]));
         playerIndex := 0;
         frameIndex := 0;
         resetToken := resetToken s + 1;
         keepStandingPins := false;
         rolling := false |}).
  { unfold addPlayer. rewrite bool_decide_eq_false_2 by exact Hne.
    reflexivity. }
  rewrite E. cbn [players framesByPlayer playerIndex frameIndex
                  keepStandingPins resetToken].
  split; [reflexivity|]. split.
  { unfold makeInitialFrames. rewrite length_app. cbn [length].
    replace (length (players s) + 1)%nat with (S (length (players s))) by lia.
    reflexivity. }
  repeat (split; [reflexivity|]). split.
  - eapply fresh_scores_zero. reflexivity.
  - reflexivity.
Qed.

Lemma addPlayer_new_game_witness :
  length (players (addPlayer (afterRolls [4; 3]) "c" "Ann")) = 3%nat
  ∧ framesByPlayer (addPlayer (afterRolls [4; 3]) "c" "Ann")
    = replicate 3 (replicate 10 emptyFrame).
Proof.
  destruct (addPlayer_new_game (afterRolls [4; 3]) "c" "Ann")
    as (Hp & Hf & _); [discriminate|].
  split; [rewrite Hp; reflexivity | exact Hf].
Defined.

(** X18: a confirmed reset keeps the roster and starts a new game: one
    empty row of ten frames per player, player 0 on frame 0 with a full
    rack, every score at 0.  A reset that is not confirmed changes
    nothing. *)
Theorem resetGame_new_game (s : AppState) :
  players (resetGame s true) = players s
  ∧ framesByPlayer (resetGame s true)
    = replicate (length (players s)) (replicate 10 emptyFrame)
  ∧ playerIndex (resetGame s true) = 0%nat
  ∧ frameIndex (resetGame s true) = 0%nat
  ∧ keepStandingPins (resetGame s true) = false
  ∧ resetToken (resetGame s true) = resetToken s + 1
  ∧ Forall (λ r, rowTotal r = 0 ∧ rowPerFrame r = replicate 10 0)
      (scores (resetGame s true))
  ∧ resetGame s false = s.
Proof.
  repeat (split; [reflexivity|]). split; [|reflexivity].
  eapply fresh_scores_zero. reflexivity.
Qed.

(** X19: in every state of the running application there is one score
    row per player, and each row has ten per-frame scores between 0 and 30
    whose sum is the total, itself between 0 and 300. *)
Theorem reachable_scores (id0 id1 : string) (s : AppState) :
  reachable id0 id1 s →
  length (scores s) = length (players s)
  ∧ Forall (λ r, length (rowPerFrame r) = 10%nat
                 ∧ Forall (λ x, 0 ≤ x ≤ 30) (rowPerFrame r)
                 ∧ rowTotal r = sumZ (rowPerFrame r)
                 ∧ 0 ≤ rowTotal r ≤ 300)
      (scores s).
Proof.
  intros Hreach. pose proof (reachable_played id0 id1 s Hreach) as Hpl.
  split; [unfold scores; apply length_imap|].
  apply Forall_lookup. intros i r Hr. unfold scores in Hr.
  rewrite list_lookup_imap in Hr.
  destruct (players s !! i) as [pl|]; [|discriminate].
  apply (inj Some) in Hr. subst r. cbn [rowTotal rowPerFrame].
  set (frames := default [] (framesByPlayer s !! i)).
  assert (Hin : Forall (λ f, Forall pinCount (rolls f)) frames).
  { unfold frames. destruct (framesByPlayer s !! i) as [row|] eqn:Hrow;
      simpl; [|constructor].
    destruct (Forall_lookup_1 _ _ _ _ (pl_store _ Hpl) Hrow) as [_ Hall].
    exact Hall. }
  destruct (score_shape_aux frames) as [L T].
  pose proof (perFrame_range frames Hin) as Hpf.
  pose proof (sumZ_range _ Hpf) as B. rewrite L in B.
  split; [exact L|]. split; [exact Hpf|]. split; [exact T|].
  rewrite T. lia.
Qed.

Lemma reachable_scores_witness :
  length (scores (afterRolls [10; 10; 10]))
  = length (players (afterRolls [10; 10; 10]))
  ∧ Forall (λ r, length (rowPerFrame r) = 10%nat
                 ∧ Forall (λ x, 0 ≤ x ≤ 30) (rowPerFrame r)
                 ∧ rowTotal r = sumZ (rowPerFrame r)
                 ∧ 0 ≤ rowTotal r ≤ 300)
      (scores (afterRolls [10; 10; 10])).
Proof.
  apply (reachable_scores "a" "b" (afterRolls [10; 10; 10])).
  apply reachable_afterRolls.
Defined.

Lemma maxPins_tenth_full rs :
  (3 ≤ length rs)%nat → maxPinsThisRoll 9 {| rolls := rs |} = 0.
Proof.
  intros H. unfold maxPinsThisRoll; cbn [rolls Nat.ltb Nat.leb].
  destruct rs as [|x [|y [|z l]]]; simpl in H; try lia. reflexivity.
Qed.

Lemma legalFrom_tenth_full todo : ∀ before,
  (3 ≤ length before)%nat →
  legalFrom 9 before todo = true →
  sumZ todo = 0.
Proof.
  induction todo as [|r todo IH]; intros before Hlen Hl; [reflexivity|].
  apply legalFrom_cons in Hl as [Hr Hl].
  rewrite maxPins_tenth_full in Hr by exact Hlen.
  assert (r = 0) as -> by lia.
  unfold sumZ in *; cbn [foldr]. rewrite (IH (before ++ [0])); [lia| |exact Hl].
  rewrite length_app. simpl. lia.
Qed.

(** X22: after nine finished frames, a 10th frame with legal rolls scores
    the sum of its rolls, whether it is still in progress, open, a spare or
    a strike with its bonus rolls. *)
Theorem tenth_frame_score_is_sum (pre : list Frame) (rs : list Z) :
  forallb closedFrame pre = true →
  length pre = 9%nat →
  legalRolls 9 rs = true →
  scPerFrame (computeBowlingScore (pre ++ [ {| rolls := rs |} ])) !! 9%nat
  = Some (sumZ rs).
Proof.
  intros Hc Hlen Hl.
  pose proof (slot_after_closed pre {| rolls := rs |} [] Hc) as H.
  rewrite Hlen in H. rewrite H by lia. clear H. f_equal.
  cbn [rolls take flat_map]. rewrite app_nil_r.
  unfold legalRolls in Hl.
  destruct rs as [|a [|b [|c l]]].
  - reflexivity.
  - unfold pushedScore, rollAt, sumZ; simpl.
    destruct (Z.eqb_spec a 10); [lia|].
    destruct (Z.eqb_spec (a + 0) 10); lia.
  - unfold pushedScore, rollAt, sumZ; simpl.
    destruct (Z.eqb_spec a 10); [lia|].
    destruct (Z.eqb_spec (a + b) 10); lia.
  - apply legalFrom_cons in Hl as [_ Hl]. apply legalFrom_cons in Hl as [_ Hl].
    apply legalFrom_cons in Hl as [Hc3 Hl]. simpl in Hc3, Hl.
    pose proof (legalFrom_tenth_full l [a; b; c] ltac:(simpl; lia) Hl) as Hz.
    unfold maxPinsThisRoll, rollAt in Hc3; simpl in Hc3.
    unfold pushedScore, rollAt; simpl.
    unfold sumZ in *; cbn [foldr]. rewrite Hz.
    destruct (Z.eqb_spec a 10); [lia|].
    destruct (Z.eqb_spec (a + b) 10); lia.
Qed.

Lemma tenth_frame_score_is_sum_witness :
  scPerFrame
    (computeBowlingScore
       (replicate 9 strikeFrame ++ [ {| rolls := [6; 4; 9] |} ]))
    !! 9%nat = Some (sumZ [6; 4; 9]).
Proof.
  apply (tenth_frame_score_is_sum (replicate 9 strikeFrame) [6; 4; 9]);
    reflexivity.
Defined.
